(** * A shallow embedding of the parser front end of wrought

    Sources: [src/src/ast/mod.rs] (the metadata wrapper [M] / [MBox]),
    [src/src/parser/mod.rs] (the cursor [ParseInput], its [Checkpoint] and
    [ParserError]) and [src/src/ast/component.rs] (the AST arena
    [Component]).

    Machine integers: a Rust [usize] is a binary natural number [N] below
    [2^64].  Arithmetic on it is written as the checked arithmetic of a
    debug build: an overflowing [+] or an underflowing [-] panics, and a
    panic is modelled by [None].  Indexing a [Vec] out of range also
    panics and is modelled the same way. *)

From Stdlib Require Import NArith Lia.
From stdpp Require Import base list gmap strings.

(** ** Machine integers *)

Definition usize_max : N := (2 ^ 64 - 1)%N.

(** [Vec] never holds more than [isize::MAX] elements. *)
Definition isize_max : N := (2 ^ 63 - 1)%N.

(** [a + b] on [usize]: panics on overflow. *)
Definition usize_add (a b : N) : option N :=
  if decide (a + b <= usize_max)%N then Some (a + b)%N else None.

(** [a - b] on [usize]: panics on underflow. *)
Definition usize_sub (a b : N) : option N :=
  if decide (b <= a)%N then Some (a - b)%N else None.

(** ** Spans and the metadata wrapper ([src/src/ast/mod.rs]) *)

(** [Span = miette::SourceSpan]: an offset and a length, both [usize]. *)
Record Span := mkSpan { offset : N; len : N }.

Definition span_from (p : N * N) : Span := mkSpan p.1 p.2.

(** [M<T>] *)
Record M (T : Type) := mkM { M_span : Span; M_value : T }.
Arguments mkM {T} _ _.
Arguments M_span {T} _.
Arguments M_value {T} _.

(** [MBox<T>]; the [Box] indirection is invisible at this level. *)
Record MBox (T : Type) := mkMBox { MBox_span : Span; MBox_value : T }.
Arguments mkMBox {T} _ _.
Arguments MBox_span {T} _.
Arguments MBox_value {T} _.

Definition M_new {T} (value : T) (span : Span) : M T := mkM span value.

(** [M::new_range] *)
Definition M_new_range {T} (value : T) (left right : Span) : option (M T) :=
  let left_most := offset left in
  right_most ← usize_add (offset right) (len right);
  len ← usize_sub right_most left_most;
  let span := span_from (left_most, len) in
  Some (mkM span value).

(** [MBox::new_range] *)
Definition MBox_new_range {T} (value : T) (left right : Span)
    : option (MBox T) :=
  let left_most := offset left in
  right_most ← usize_add (offset right) (len right);
  len ← usize_sub right_most left_most;
  let span := span_from (left_most, len) in
  Some (mkMBox span value).

(** ** The parser cursor ([src/src/parser/mod.rs]) *)

(** [miette::NamedSource]: a name and the source text. *)
Record NamedSource := mkNamedSource { ns_name : string; ns_source : string }.

(** Rust's [Result]. *)
Inductive Result (A E : Type) := Ok (a : A) | Err (e : E).
Arguments Ok {A E} _.
Arguments Err {A E} _.

(** [Option::ok_or] *)
Definition ok_or {A E} (o : option A) (e : E) : Result A E :=
  match o with Some a => Ok a | None => Err e end.

Section Cursor.

(** The lexer's [Token] type lives outside this part of the repository;
    the cursor only compares tokens for equality. *)
Context {Token : Type} `{EqDecision Token}.

(** [lexer::TokenData] *)
Record TokenData := mkTokenData { token : Token; td_span : Span }.

(** [ParserError]; [Arc<NamedSource>] is the shared source itself. *)
Inductive ParserError :=
  | Base (src : NamedSource) (span : Span)
  | UnexpectedToken (description : string) (tok : option Token)
  | EndOfInput
  | NotYetSupported (feature : string) (tok : Token).

(** [ParseInput] *)
Record ParseInput := mkParseInput {
  src : NamedSource;
  tokens : list TokenData;
  index : N
}.

(** [Checkpoint] *)
Record Checkpoint := mkCheckpoint { cp_index : N }.

Definition tokens_len (s : ParseInput) : N := N.of_nat (length (tokens s)).

(** [self.tokens.get(self.index)] *)
Definition get_current (s : ParseInput) : option TokenData :=
  tokens s !! N.to_nat (index s).

Definition set_index (s : ParseInput) (i : N) : ParseInput :=
  mkParseInput (src s) (tokens s) i.

(** [ParseInput::new] *)
Definition ParseInput_new (src : NamedSource) (tokens : list TokenData)
    : ParseInput :=
  mkParseInput src tokens 0.

(** [unsupported_error]: [self.tokens[self.index]] panics out of range. *)
Definition unsupported_error (s : ParseInput) (feature : string)
    : option ParserError :=
  t ← get_current s;
  Some (NotYetSupported feature (token t)).

(** [unexpected_token] *)
Definition unexpected_token (s : ParseInput) (description : string)
    : ParserError :=
  UnexpectedToken description (token <$> get_current s).

(** [checkpoint] (takes [&self]) *)
Definition checkpoint (s : ParseInput) : Checkpoint :=
  mkCheckpoint (index s).

(** [restore] *)
Definition restore (s : ParseInput) (c : Checkpoint) : ParseInput :=
  set_index s (cp_index c).

(** [done] *)
Definition done (s : ParseInput) : bool :=
  bool_decide (tokens_len s <= index s)%N.

(** [peek]: does not move the cursor. *)
Definition peek (s : ParseInput) : Result TokenData ParserError :=
  ok_or (get_current s) EndOfInput.

(** [next]: [self.index += 1] happens before the end-of-input check. *)
Definition next (s : ParseInput)
    : option (ParseInput * Result TokenData ParserError) :=
  let result := get_current s in
  i ← usize_add (index s) 1;
  Some (set_index s i, ok_or result EndOfInput).

(** [assert_next] *)
Definition assert_next (s : ParseInput) (tok : Token) (description : string)
    : option (ParseInput * Result Span ParserError) :=
  '(s1, r) ← next s;
  match r with
  | Err e => Some (s1, Err e)
  | Ok nx =>
      if decide (token nx = tok) then Some (s1, Ok (td_span nx))
      else Some (s1, Err (unexpected_token s1 description))
  end.

(** [next_if] *)
Definition next_if (s : ParseInput) (tok : Token)
    : option (ParseInput * option Span) :=
  match peek s with
  | Err _ => Some (s, None)
  | Ok nx =>
      if decide (token nx <> tok) then Some (s, None)
      else
        '(s1, r) ← next s;
        match r with
        | Ok t => Some (s1, Some (td_span t))
        | Err _ => Some (s1, None)
        end
  end.

(** [has] *)
Definition has (s : ParseInput) (num : N) : option bool :=
  e ← usize_add (index s) num;
  Some (bool_decide (e <= tokens_len s)%N).

(** [&v[a..b]] on a slice: panics unless [a <= b <= v.len()]. *)
Definition slice_range (v : list TokenData) (a b : N)
    : option (list TokenData) :=
  if decide (a <= b /\ b <= N.of_nat (length v))%N
  then Some (take (N.to_nat (b - a)) (drop (N.to_nat a) v))
  else None.

(** [slice_next] *)
Definition slice_next (s : ParseInput) (num : N)
    : option (ParseInput * Result (list TokenData) ParserError) :=
  has_num ← has s num;
  match has_num with
  | true =>
      e ← usize_add (index s) num;
      result ← slice_range (tokens s) (index s) e;
      i ← usize_add (index s) num;
      Some (set_index s i, Ok result)
  | false => Some (s, Err EndOfInput)
  end.

End Cursor.

Arguments TokenData : clear implicits.
Arguments ParserError : clear implicits.
Arguments ParseInput : clear implicits.

Section CursorOps.

Context {Token : Type} `{EqDecision Token}.

(** One call on the cursor, as a grammar production makes it. *)
Inductive CursorOp :=
  | OpPeek
  | OpNext
  | OpAssertNext (tok : Token) (description : string)
  | OpNextIf (tok : Token)
  | OpHas (num : N)
  | OpSliceNext (num : N)
  | OpDone
  | OpCheckpoint
  | OpRestore (c : Checkpoint)
  | OpUnexpectedToken (description : string)
  | OpUnsupportedError (feature : string).

(** The cursor after one call; [None] when the call panics. *)
Definition step_op (s : ParseInput Token) (o : CursorOp)
    : option (ParseInput Token) :=
  match o with
  | OpPeek => let _ := peek s in Some s
  | OpNext => fst <$> next s
  | OpAssertNext tok d => fst <$> assert_next s tok d
  | OpNextIf tok => fst <$> next_if s tok
  | OpHas num => (fun _ => s) <$> has s num
  | OpSliceNext num => fst <$> slice_next s num
  | OpDone => let _ := done s in Some s
  | OpCheckpoint => let _ := checkpoint s in Some s
  | OpRestore c => Some (restore s c)
  | OpUnexpectedToken d => let _ := unexpected_token s d in Some s
  | OpUnsupportedError f => (fun _ => s) <$> unsupported_error s f
  end.

Fixpoint run_ops (s : ParseInput Token) (os : list CursorOp)
    : option (ParseInput Token) :=
  match os with
  | [] => Some s
  | o :: os' => s' ← step_op s o; run_ops s' os'
  end.

(** [k] calls of [next], threading the cursor; the results are dropped. *)
Fixpoint next_n (s : ParseInput Token) (k : nat)
    : option (ParseInput Token * list (Result (TokenData Token) (ParserError Token))) :=
  match k with
  | O => Some (s, [])
  | S k' =>
      '(s1, r) ← next s;
      '(s2, rs) ← next_n s1 k';
      Some (s2, r :: rs)
  end.

End CursorOps.

Arguments CursorOp : clear implicits.

(** ** The AST arena ([src/src/ast/component.rs]) *)

Section Arena.

(** [ValType] and [ast::Statement] are stored, never inspected. *)
Context {ValType Statement : Type}.

(** [Component], restricted to the tables that [new_name], [new_type] and
    [new_statement] touch: each [PrimaryMap] is the list of its entries
    (the handle of an entry is its position), each [HashMap] of spans a
    [gmap] keyed by handle.  [src], [imports], [globals], [functions] and
    [expression_data] are neither read nor written by these functions. *)
Record Component := mkComponent {
  types : list ValType;
  type_spans : gmap N Span;
  statements : list Statement;
  statement_spans : gmap N Span;
  names : list string;
  name_spans : gmap N Span
}.

(** [Component::new]: every table empty. *)
Definition Component_new : Component := mkComponent [] ∅ [] ∅ [] ∅.

(** [PrimaryMap::push]: the new key is the length before the push. *)
Definition primary_push {A} (elems : list A) (v : A) : list A * N :=
  (elems ++ [v], N.of_nat (length elems)).

(** [new_name] *)
Definition new_name (c : Component) (name : string) (span : Span)
    : Component * N :=
  let '(names', id) := primary_push (names c) name in
  (mkComponent (types c) (type_spans c) (statements c) (statement_spans c)
     names' (<[id := span]> (name_spans c)), id).

(** [get_name] ([unwrap] panics on a foreign handle) *)
Definition get_name (c : Component) (id : N) : option string :=
  names c !! N.to_nat id.

(** [name_span] *)
Definition name_span (c : Component) (id : N) : option Span :=
  name_spans c !! id.

(** [new_type] *)
Definition new_type (c : Component) (valtype : ValType) (span : Span)
    : Component * N :=
  let '(types', id) := primary_push (types c) valtype in
  (mkComponent types' (<[id := span]> (type_spans c)) (statements c)
     (statement_spans c) (names c) (name_spans c), id).

(** [get_type] *)
Definition get_type (c : Component) (id : N) : option ValType :=
  types c !! N.to_nat id.

(** [type_span] *)
Definition type_span (c : Component) (id : N) : option Span :=
  type_spans c !! id.

(** [new_statement] *)
Definition new_statement (c : Component) (statement : Statement) (span : Span)
    : Component * N :=
  let '(statements', id) := primary_push (statements c) statement in
  (mkComponent (types c) (type_spans c) statements'
     (<[id := span]> (statement_spans c)) (names c) (name_spans c), id).

(** [get_statement] *)
Definition get_statement (c : Component) (id : N) : option Statement :=
  statements c !! N.to_nat id.

(** [statement_span] *)
Definition statement_span (c : Component) (id : N) : option Span :=
  statement_spans c !! id.

(** One allocation call. *)
Inductive AllocOp :=
  | NewName (name : string) (span : Span)
  | NewType (valtype : ValType) (span : Span)
  | NewStatement (statement : Statement) (span : Span).

(** The three handle-issuing tables. *)
Inductive Table := TNames | TTypes | TStatements.

Definition op_table (o : AllocOp) : Table :=
  match o with
  | NewName _ _ => TNames
  | NewType _ _ => TTypes
  | NewStatement _ _ => TStatements
  end.

Definition op_span (o : AllocOp) : Span :=
  match o with
  | NewName _ sp | NewType _ sp | NewStatement _ sp => sp
  end.

Definition alloc (c : Component) (o : AllocOp) : Component * N :=
  match o with
  | NewName n sp => new_name c n sp
  | NewType v sp => new_type c v sp
  | NewStatement st sp => new_statement c st sp
  end.

(** Runs allocations in order; returns the arena and every issued handle
    tagged with its table. *)
Fixpoint run_allocs (c : Component) (os : list AllocOp)
    : Component * list (Table * N) :=
  match os with
  | [] => (c, [])
  | o :: os' =>
      let '(c1, id) := alloc c o in
      let '(c2, hs) := run_allocs c1 os' in
      (c2, (op_table o, id) :: hs)
  end.

Definition table_len (c : Component) (t : Table) : nat :=
  match t with
  | TNames => length (names c)
  | TTypes => length (types c)
  | TStatements => length (statements c)
  end.

Definition table_span (c : Component) (t : Table) (id : N) : option Span :=
  match t with
  | TNames => name_span c id
  | TTypes => type_span c id
  | TStatements => statement_span c id
  end.

End Arena.

Arguments Component : clear implicits.
Arguments AllocOp : clear implicits.

#[global] Instance Table_eq_dec : EqDecision Table.
Proof. solve_decision. Defined.

(** The handles issued for table [t], in order. *)
Definition handles_for (t : Table) (hs : list (Table * N)) : list N :=
  (filter (fun p => p.1 = t) hs).*2.

(** ** Further definitions *)

(** [ParseInput::get_source]: a clone of the shared source. *)
Definition get_source {Token} (s : ParseInput Token) : NamedSource := src s.

(** [MBox::new] *)
Definition MBox_new {T} (value : T) (span : Span) : MBox T := mkMBox span value.

(** [ast::Let], as [Component::alloc_let] fills it in; handles are
    [NameId], [TypeId] and [ExpressionId] values. *)
Record Let_ := mkLet {
  mutable : bool;
  ident : N;
  annotation : option N;
  expression : N
}.

Section ArenaLet.

Context {ValType Statement : Type}.

(** The [ast::Statement::Let] constructor ([ast::Statement] is declared
    outside this part of the repository). *)
Variable Statement_Let : Let_ -> Statement.

(** [Component::alloc_let] *)
Definition alloc_let (c : Component ValType Statement) (mutable : bool)
    (ident : N) (annotation : option N) (expression : N) (span : Span)
    : Component ValType Statement * N :=
  let let_ := mkLet mutable ident annotation expression in
  new_statement c (Statement_Let let_) span.

End ArenaLet.

(** * Properties *)

(** [Vec]'s length bound, which every [ParseInput] satisfies. *)
Definition vec_len_ok {Token} (s : ParseInput Token) : Prop :=
  (tokens_len s <= isize_max)%N.

Section CursorFacts.

Context {Token : Type} `{EqDecision Token}.
Implicit Types s : ParseInput Token.

Lemma set_index_index s : set_index s (index s) = s.
Proof. by destruct s. Qed.

Lemma set_index_set_index s i j : set_index (set_index s i) j = set_index s j.
Proof. by destruct s. Qed.

Lemma usize_add_ok a b : (a + b <= usize_max)%N -> usize_add a b = Some (a + b)%N.
Proof. intros H. unfold usize_add. by rewrite decide_True. Qed.

Lemma usize_add_overflow a b : (usize_max < a + b)%N -> usize_add a b = None.
Proof. intros H. unfold usize_add. rewrite decide_False; [done | lia]. Qed.

Lemma get_current_lt s td :
  get_current s = Some td -> (index s < tokens_len s)%N.
Proof.
  unfold get_current, tokens_len. intros H.
  apply lookup_lt_Some in H. lia.
Qed.

(** A cursor with a token under it can always step one further. *)
Lemma next_current s td :
  vec_len_ok s -> get_current s = Some td ->
  next s = Some (set_index s (index s + 1)%N, Ok td).
Proof.
  intros Hv Hc. pose proof (get_current_lt s td Hc) as Hlt.
  unfold vec_len_ok, isize_max in Hv.
  unfold next. rewrite usize_add_ok by (unfold usize_max; lia).
  by rewrite Hc.
Qed.

Lemma next_some s s' r :
  next s = Some (s', r) -> s' = set_index s (index s + 1)%N.
Proof.
  unfold next. intros H.
  destruct (usize_add (index s) 1) as [i|] eqn:E; simpl in H; [|congruence].
  unfold usize_add in E. case_decide; simplify_eq. done.
Qed.

Lemma step_op_frame s o s' :
  step_op s o = Some s' -> src s' = src s /\ tokens s' = tokens s.
Proof.
  destruct o; simpl;
    unfold next, assert_next, next_if, slice_next, has, restore, set_index,
      unsupported_error in *;
    intros H;
    repeat (case_match || simplify_option_eq ||
            match goal with p : (_ * _)%type |- _ => destruct p end).
  all: try (split; reflexivity).
  all: match goal with H : next _ = Some _ |- _ => apply next_some in H end;
       by subst.
Qed.

Lemma run_ops_frame s os s' :
  run_ops s os = Some s' -> src s' = src s /\ tokens s' = tokens s.
Proof.
  revert s. induction os as [|o os IH]; intros s H; simpl in H.
  - by simplify_eq.
  - destruct (step_op s o) as [s1|] eqn:E; [|done]. simpl in H.
    apply step_op_frame in E as [E1 E2].
    destruct (IH s1 H) as [H1 H2]. split; congruence.
Qed.

End CursorFacts.

(** C1. Restoring a checkpoint taken at a cursor state [s] gives back the
    cursor at [s] (its position, and its unchanged tokens and source),
    whatever sequence of peek, next, assert_next, next_if, has,
    slice_next, done, checkpoint, restore or error-building calls ran in
    between; [checkpoint] takes [&self] and leaves the cursor unchanged,
    so restoring right away is the identity. *)
Theorem checkpoint_restore_law {Token} `{EqDecision Token}
    (s s' : ParseInput Token) (os : list (CursorOp Token)) :
  run_ops s os = Some s' ->
  restore s' (checkpoint s) = s /\ index (restore s' (checkpoint s)) = index s
  /\ restore s (checkpoint s) = s.
Proof.
  intros H. destruct (run_ops_frame s os s' H) as [H1 H2].
  destruct s as [sr tk i], s' as [sr' tk' i']; simpl in *; subst.
  unfold restore, checkpoint, set_index. simpl. done.
Qed.

Definition demo_src : NamedSource := mkNamedSource "demo" "a b".

Definition demo_tokens : list (TokenData nat) :=
  [mkTokenData 1 (mkSpan 0 1); mkTokenData 2 (mkSpan 2 1)].

Definition demo_input : ParseInput nat := ParseInput_new demo_src demo_tokens.

Lemma checkpoint_restore_law_witness :
  run_ops demo_input [OpNext; OpSliceNext 1%N; OpNext; OpPeek; OpNextIf 7]
    = Some (set_index demo_input 3%N) /\
  restore (set_index demo_input 3%N) (checkpoint demo_input) = demo_input.
Proof.
  split; [vm_compute; reflexivity|].
  apply (checkpoint_restore_law demo_input (set_index demo_input 3%N)
           [OpNext; OpSliceNext 1%N; OpNext; OpPeek; OpNextIf 7]).
  vm_compute. reflexivity.
Defined.

(** A span whose two fields are [usize] values. *)
Definition usize_span (sp : Span) : Prop :=
  (offset sp <= usize_max)%N /\ (len sp <= usize_max)%N.

(** C2 (as stated, refuted). For [usize] spans [left = (0, 0)] and
    [right = (usize::MAX, 1)] the condition [o2 + l2 >= o1] holds, but
    [right.offset() + right.len()] overflows, so [new_range] panics
    instead of returning the span [(0, 2^64)]. *)
Lemma new_range_end_overflow :
  ~ (forall (v : unit) (left right : Span),
       usize_span left -> usize_span right ->
       (offset left <= offset right + len right)%N ->
       M_new_range v left right =
         Some (mkM (mkSpan (offset left)
                      (offset right + len right - offset left)) v) /\
       MBox_new_range v left right =
         Some (mkMBox (mkSpan (offset left)
                      (offset right + len right - offset left)) v)).
Proof.
  intros H.
  destruct (H tt (mkSpan 0 0) (mkSpan usize_max 1)) as [H1 _].
  - unfold usize_span, usize_max; simpl; lia.
  - unfold usize_span, usize_max; simpl; lia.
  - simpl; lia.
  - vm_compute in H1. discriminate.
Qed.

(** C2 (amended). When the right span's end [o2 + l2] is a [usize] (it
    does not overflow) and [o2 + l2 >= o1], [M::new_range] and
    [MBox::new_range] wrap the value [v] unchanged with the span
    [(o1, o2 + l2 - o1)]. *)
Theorem new_range_span_merge {T} (v : T) (left right : Span) :
  (offset left <= offset right + len right)%N ->
  (offset right + len right <= usize_max)%N ->
  M_new_range v left right =
    Some (mkM (mkSpan (offset left) (offset right + len right - offset left)) v) /\
  MBox_new_range v left right =
    Some (mkMBox (mkSpan (offset left) (offset right + len right - offset left)) v).
Proof.
  intros Hle Hmax.
  unfold M_new_range, MBox_new_range.
  rewrite (usize_add_ok _ _ Hmax). simpl.
  unfold usize_sub. rewrite decide_True by lia. done.
Qed.

Lemma new_range_span_merge_witness :
  (3 <= 10 + 4 <= usize_max)%N /\
  M_new_range "x" (mkSpan 3 2) (mkSpan 10 4) = Some (mkM (mkSpan 3 11) "x").
Proof.
  split; [unfold usize_max; lia|].
  apply (new_range_span_merge "x" (mkSpan 3 2) (mkSpan 10 4));
    simpl; unfold usize_max; lia.
Defined.

(** C3. When a token is under the cursor, [assert_next] moves the cursor
    exactly one token forward, on a match (returning the token's span) and
    on a mismatch (returning an [UnexpectedToken] error) alike. *)
Theorem assert_next_advances_one {Token} `{EqDecision Token}
    (s : ParseInput Token) (tok : Token) (description : string) :
  vec_len_ok s -> (index s < tokens_len s)%N ->
  exists td r,
    get_current s = Some td /\
    assert_next s tok description = Some (set_index s (index s + 1)%N, r) /\
    (token td = tok -> r = Ok (td_span td)) /\
    (token td <> tok ->
       exists found, r = Err (UnexpectedToken description found)).
Proof.
  intros Hv Hlt.
  destruct (get_current s) as [td|] eqn:Hc.
  2:{ exfalso. unfold get_current, tokens_len in *.
      apply lookup_ge_None in Hc. lia. }
  unfold assert_next. rewrite (next_current s td Hv Hc). simpl.
  case_decide as Heq.
  - exists td, (Ok (td_span td)).
    split; [done|]. split; [done|]. split; [done|]. intros; done.
  - eexists td, _. split; [done|]. split; [reflexivity|].
    split; [intros; done|]. intros _. eexists. reflexivity.
Qed.

Lemma assert_next_advances_one_witness :
  vec_len_ok demo_input /\ (index demo_input < tokens_len demo_input)%N /\
  exists td r,
    get_current demo_input = Some td /\
    assert_next demo_input 5 "a five" = Some (set_index demo_input 1%N, r) /\
    (token td = 5 -> r = Ok (td_span td)) /\
    (token td <> 5 -> exists found, r = Err (UnexpectedToken "a five" found)).
Proof.
  assert (Hv : vec_len_ok demo_input)
    by (unfold vec_len_ok, isize_max; vm_compute; discriminate).
  assert (Hl : (index demo_input < tokens_len demo_input)%N)
    by (vm_compute; reflexivity).
  split; [exact Hv|]. split; [exact Hl|].
  exact (assert_next_advances_one demo_input 5 "a five" Hv Hl).
Defined.

(** C4 (code bug). [assert_next] builds its [UnexpectedToken] error after
    [next] has moved the cursor, so the error carries the token after the
    one consumed, not the token found.  On the tokens [1; 2] with the
    cursor at 0, [assert_next 3 "c"] consumes token [1] and reports
    token [2]. *)
Theorem assert_next_reports_following_token :
  get_current demo_input = Some (mkTokenData 1 (mkSpan 0 1)) /\
  assert_next demo_input 3 "c" =
    Some (set_index demo_input 1%N, Err (UnexpectedToken "c" (Some 2))).
Proof. split; vm_compute; reflexivity. Qed.

(** C5. If the token under the cursor differs from the probed token,
    [next_if] returns [None] and leaves the cursor as it was, so a later
    [peek] or [next] sees the same token; if it is the probed token,
    [next_if] consumes it (one step forward) and returns its span. *)
Theorem next_if_frame {Token} `{EqDecision Token}
    (s : ParseInput Token) (tok : Token) (td : TokenData Token) :
  vec_len_ok s -> get_current s = Some td ->
  (token td <> tok ->
     next_if s tok = Some (s, None) /\ peek s = Ok td /\
     next s = Some (set_index s (index s + 1)%N, Ok td)) /\
  (token td = tok ->
     next_if s tok = Some (set_index s (index s + 1)%N, Some (td_span td))).
Proof.
  intros Hv Hc.
  assert (Hp : peek s = Ok td) by (unfold peek; by rewrite Hc).
  split.
  - intros Hne. unfold next_if. rewrite Hp. rewrite decide_True by done.
    split; [done|]. split; [done|]. exact (next_current s td Hv Hc).
  - intros Heq. unfold next_if. rewrite Hp. rewrite decide_False by tauto.
    rewrite (next_current s td Hv Hc). done.
Qed.

Lemma next_if_frame_witness :
  vec_len_ok demo_input /\
  get_current demo_input = Some (mkTokenData 1 (mkSpan 0 1)) /\
  next_if demo_input 2 = Some (demo_input, None) /\
  next_if demo_input 1 = Some (set_index demo_input 1%N, Some (mkSpan 0 1)).
Proof.
  assert (Hv : vec_len_ok demo_input)
    by (unfold vec_len_ok, isize_max; vm_compute; discriminate).
  assert (Hc : get_current demo_input = Some (mkTokenData 1 (mkSpan 0 1)))
    by (vm_compute; reflexivity).
  destruct (next_if_frame demo_input 2 _ Hv Hc) as [H1 _].
  destruct (next_if_frame demo_input 1 _ Hv Hc) as [_ H2].
  split; [exact Hv|]. split; [exact Hc|].
  split; [apply H1; simpl; lia|].
  exact (H2 eq_refl).
Defined.

Section ArenaFacts.

Context {ValType Statement : Type}.
Implicit Types (c : Component ValType Statement) (o : AllocOp ValType Statement).

Lemma alloc_spec c o c1 id :
  alloc c o = (c1, id) ->
  id = N.of_nat (table_len c (op_table o)) /\
  (forall t, table_len c1 t =
     table_len c t + (if decide (op_table o = t) then 1 else 0))%nat /\
  table_span c1 (op_table o) id = Some (op_span o) /\
  (forall t id', (N.to_nat id' < table_len c t)%nat ->
     table_span c1 t id' = table_span c t id').
Proof.
  destruct c as [ty tys st sts nm nms].
  destruct o; simpl;
    unfold new_name, new_type, new_statement, primary_push; simpl;
    intros H; injection H as <- <-.
  all: split; [done|].
  all: split; [intros []; simpl; rewrite ?length_app; simpl;
               repeat case_decide; simplify_eq; lia|].
  all: split; [unfold name_span, type_span, statement_span; simpl;
               by rewrite lookup_insert_eq|].
  all: intros [] id' Hlt; simpl in *;
       unfold name_span, type_span, statement_span; simpl; try done;
       rewrite lookup_insert_ne; [done|lia].
Qed.

Lemma run_allocs_handles c os t :
  handles_for t (run_allocs c os).2 =
    map N.of_nat (seq (table_len c t)
                    (length (filter (fun o => op_table o = t) os))).
Proof.
  revert c. induction os as [|o os IH]; intros c; [done|].
  simpl. destruct (alloc c o) as [c1 id] eqn:Ha.
  destruct (run_allocs c1 os) as [c2 hs] eqn:Hr.
  destruct (alloc_spec c o c1 id Ha) as (Hid & Hlen & _ & _).
  specialize (IH c1). rewrite Hr in IH. cbn [snd] in IH.
  unfold handles_for in *. cbn [snd]. rewrite !filter_cons.
  rewrite Hlen in IH. cbn [fst] in *.
  case_decide as Ht.
  - rewrite fmap_cons, IH. cbn [fst length seq map]. subst.
    by rewrite Nat.add_1_r.
  - rewrite IH. f_equal. f_equal. lia.
Qed.

Lemma run_allocs_table_len c os t :
  (table_len c t <= table_len (run_allocs c os).1 t)%nat.
Proof.
  revert c. induction os as [|o os IH]; intros c; simpl; [lia|].
  destruct (alloc c o) as [c1 id] eqn:Ha.
  destruct (run_allocs c1 os) as [c2 hs] eqn:Hr.
  destruct (alloc_spec c o c1 id Ha) as (_ & Hlen & _ & _).
  specialize (IH c1). rewrite Hr in IH. simpl in *.
  rewrite Hlen in IH. lia.
Qed.

Lemma run_allocs_span_stable c os t id :
  (N.to_nat id < table_len c t)%nat ->
  table_span (run_allocs c os).1 t id = table_span c t id.
Proof.
  revert c. induction os as [|o os IH]; intros c Hlt; simpl; [done|].
  destruct (alloc c o) as [c1 id1] eqn:Ha.
  destruct (run_allocs c1 os) as [c2 hs] eqn:Hr.
  destruct (alloc_spec c o c1 id1 Ha) as (_ & Hlen & _ & Hkeep).
  assert (Hlt1 : (N.to_nat id < table_len c1 t)%nat)
    by (rewrite Hlen; lia).
  specialize (IH c1 Hlt1). rewrite Hr in IH. cbn [fst] in IH |- *.
  rewrite IH. by apply Hkeep.
Qed.

End ArenaFacts.

(** C6. In a fresh arena, the handles that [new_name], [new_type] and
    [new_statement] issue for a table are [0, 1, 2, ...] in allocation
    order: they start at zero, each is strictly greater than every earlier
    one of that table, none is issued twice; and the span recorded by an
    allocation is still returned for its handle after any later
    allocations. *)
Theorem arena_handles_monotone {ValType Statement : Type} :
  (forall (os : list (AllocOp ValType Statement)) (t : Table),
     let hs := handles_for t (run_allocs Component_new os).2 in
     hs = map N.of_nat (seq 0 (length (filter (fun o => op_table o = t) os))) /\
     (forall i j hi hj, (i < j)%nat -> hs !! i = Some hi -> hs !! j = Some hj ->
        (hi < hj)%N) /\
     NoDup hs) /\
  (forall (os1 : list (AllocOp ValType Statement)) o os2,
     let '(c1, id) := alloc (run_allocs Component_new os1).1 o in
     table_span (run_allocs c1 os2).1 (op_table o) id = Some (op_span o)).
Proof.
  split.
  - intros os t hs.
    assert (Hhs : hs = map N.of_nat
                    (seq 0 (length (filter (fun o => op_table o = t) os)))).
    { unfold hs. rewrite run_allocs_handles. by destruct t. }
    split; [exact Hhs|]. split.
    + intros i j hi hj Hij Hi Hj. rewrite Hhs in Hi, Hj.
      rewrite list_lookup_fmap in Hi, Hj.
      apply fmap_Some in Hi as (x & Hx & ->).
      apply fmap_Some in Hj as (y & Hy & ->).
      apply lookup_seq in Hx as [-> _]. apply lookup_seq in Hy as [-> _].
      lia.
    + rewrite Hhs. apply NoDup_fmap; [intros x y; lia|]. apply NoDup_seq.
  - intros os1 o os2.
    destruct (alloc (run_allocs Component_new os1).1 o) as [c1 id] eqn:Ha.
    destruct (alloc_spec _ o c1 id Ha) as (Hid & Hlen & Hsp & _).
    rewrite run_allocs_span_stable; [done|].
    rewrite Hid, Hlen, Nat2N.id. rewrite decide_True by done. lia.
Qed.

(** A cursor over one token. *)
Definition one_token_input : ParseInput nat :=
  ParseInput_new demo_src [mkTokenData 1 (mkSpan 0 1)].

(** An empty cursor. *)
Definition empty_input : ParseInput nat := ParseInput_new demo_src [].

(** C7 (as stated, refuted). After one [next] the cursor over one token
    sits at position 1; there [has(usize::MAX)] computes
    [self.index + num], which overflows and panics, so it returns no
    boolean at all, and [slice_next(usize::MAX)] panics too instead of
    failing with [EndOfInput]. *)
Lemma has_index_plus_num_overflow :
  next one_token_input =
    Some (set_index one_token_input 1%N, Ok (mkTokenData 1 (mkSpan 0 1))) /\
  has (set_index one_token_input 1%N) usize_max = None /\
  slice_next (set_index one_token_input 1%N) usize_max = None.
Proof. split; [|split]; vm_compute; reflexivity. Qed.

(** C7 (amended). When [index + n] does not overflow a [usize]: [has(n)]
    is true exactly when [index + n <= len], i.e. at least [n] tokens
    remain; then [slice_next(n)] returns the next [n] tokens and moves the
    cursor [n] forward, and otherwise it fails with [EndOfInput] and leaves
    the cursor as it was. *)
Theorem has_slice_next_window {Token} `{EqDecision Token}
    (s : ParseInput Token) (n : N) :
  (index s + n <= usize_max)%N ->
  has s n = Some (bool_decide (index s + n <= tokens_len s)%N) /\
  ((index s + n <= tokens_len s)%N ->
     exists window,
       slice_next s n = Some (set_index s (index s + n)%N, Ok window) /\
       window = take (N.to_nat n) (drop (N.to_nat (index s)) (tokens s)) /\
       length window = N.to_nat n) /\
  (~ (index s + n <= tokens_len s)%N ->
     slice_next s n = Some (s, Err EndOfInput)).
Proof.
  intros Hmax.
  assert (Hhas : has s n = Some (bool_decide (index s + n <= tokens_len s)%N))
    by (unfold has; by rewrite (usize_add_ok _ _ Hmax)).
  split; [exact Hhas|]. split.
  - intros Hle. eexists. split; [|split; [reflexivity|]].
    + unfold slice_next. rewrite Hhas. simpl.
      rewrite bool_decide_eq_true_2 by done.
      unfold usize_add. rewrite decide_True by exact Hmax. simpl.
      unfold slice_range. rewrite decide_True.
      2:{ unfold tokens_len in Hle. lia. }
      simpl. do 3 f_equal. f_equal. f_equal. lia.
    + rewrite length_take, length_drop. unfold tokens_len in Hle. lia.
  - intros Hgt. unfold slice_next. rewrite Hhas. simpl.
    rewrite bool_decide_eq_false_2 by done. done.
Qed.

Lemma has_slice_next_window_witness :
  (index demo_input + 2 <= usize_max)%N /\
  slice_next demo_input 2 = Some (set_index demo_input 2%N, Ok demo_tokens) /\
  slice_next demo_input 3 = Some (demo_input, Err EndOfInput).
Proof.
  assert (Hm : (index demo_input + 2 <= usize_max)%N)
    by (unfold usize_max; simpl; lia).
  assert (Hm3 : (index demo_input + 3 <= usize_max)%N)
    by (unfold usize_max; simpl; lia).
  split; [exact Hm|]. split.
  - destruct (has_slice_next_window demo_input 2 Hm) as (_ & H & _).
    assert (Hle : (index demo_input + 2 <= tokens_len demo_input)%N)
      by (unfold tokens_len; simpl; lia).
    destruct (H Hle) as (w & Hs & Hw & _).
    rewrite Hs, Hw. reflexivity.
  - destruct (has_slice_next_window demo_input 3 Hm3) as (_ & _ & H).
    apply H. unfold tokens_len; simpl; lia.
Defined.

(** C8 (code bug). [unexpected_token] reads the token with
    [self.tokens.get(self.index)] and always returns an error value, but
    [unsupported_error] indexes [self.tokens[self.index]] and panics when
    the cursor is at the end: on an empty token sequence it aborts instead
    of returning a [ParserError]. *)
Theorem unsupported_error_panics_at_end :
  done empty_input = true /\
  unsupported_error empty_input "generics" = None /\
  unexpected_token empty_input "generics" = UnexpectedToken "generics" None.
Proof. split; [|split]; vm_compute; reflexivity. Qed.

(** [unexpected_token] returns a value on every cursor. *)
Lemma unexpected_token_total {Token} `{EqDecision Token}
    (s : ParseInput Token) (description : string) :
  unexpected_token s description =
    UnexpectedToken description (token <$> get_current s).
Proof. reflexivity. Qed.

(** C10 (as stated, refuted). One failed [next] on an empty cursor moves it
    to position 1, past the end; there [has(usize::MAX)] overflows
    [index + num] and panics rather than returning false. *)
Lemma has_past_end_overflow :
  next empty_input = Some (set_index empty_input 1%N, Err EndOfInput) /\
  done (set_index empty_input 1%N) = true /\
  has (set_index empty_input 1%N) usize_max = None.
Proof. split; [|split]; vm_compute; reflexivity. Qed.

Lemma next_at_end {Token} `{EqDecision Token} (s : ParseInput Token) :
  done s = true -> (index s + 1 <= usize_max)%N ->
  next s = Some (set_index s (index s + 1)%N, Err EndOfInput).
Proof.
  intros Hd Hm. unfold done in Hd. apply bool_decide_eq_true_1 in Hd.
  unfold next. rewrite (usize_add_ok _ _ Hm). simpl.
  unfold get_current. rewrite lookup_ge_None_2; [done|].
  unfold tokens_len in Hd. lia.
Qed.

Lemma next_n_at_end {Token} `{EqDecision Token}
    (s : ParseInput Token) (k : nat) :
  done s = true -> (index s + N.of_nat k <= usize_max)%N ->
  next_n s k =
    Some (set_index s (index s + N.of_nat k)%N, replicate k (Err EndOfInput)).
Proof.
  revert s. induction k as [|k IH]; intros s Hd Hm; simpl.
  - by rewrite N.add_0_r, set_index_index.
  - rewrite (next_at_end s Hd) by lia. simpl.
    assert (Hd1 : done (set_index s (index s + 1)%N) = true).
    { unfold done in *. apply bool_decide_eq_true_1 in Hd.
      apply bool_decide_eq_true_2. unfold tokens_len, set_index in *.
      simpl in *. lia. }
    rewrite (IH _ Hd1) by (unfold set_index; simpl; lia). simpl.
    rewrite set_index_set_index. do 3 f_equal. unfold set_index; simpl. lia.
Qed.

(** C10 (amended). At or past the end, each of [k] calls of [next] fails
    with [EndOfInput] and still moves the cursor one step, as long as the
    position stays a [usize]; afterwards [done] is true and [has(n)] is
    false for every [n >= 1] whose sum with the position does not
    overflow. *)
Theorem next_past_end_advances {Token} `{EqDecision Token}
    (s : ParseInput Token) (k : nat) :
  done s = true -> (index s + N.of_nat k <= usize_max)%N ->
  next_n s k =
    Some (set_index s (index s + N.of_nat k)%N, replicate k (Err EndOfInput)) /\
  done (set_index s (index s + N.of_nat k)%N) = true /\
  (forall n, (1 <= n)%N -> (index s + N.of_nat k + n <= usize_max)%N ->
     has (set_index s (index s + N.of_nat k)%N) n = Some false).
Proof.
  intros Hd Hm.
  assert (Hle : (tokens_len s <= index s)%N)
    by (unfold done in Hd; by apply bool_decide_eq_true_1 in Hd).
  split; [|split].
  - by apply next_n_at_end.
  - unfold done, tokens_len, set_index in *; simpl.
    apply bool_decide_eq_true_2. lia.
  - intros n Hn Hn'. unfold has, set_index. simpl.
    rewrite usize_add_ok by exact Hn'. simpl.
    f_equal. apply bool_decide_eq_false_2. unfold tokens_len in *. simpl. lia.
Qed.

Lemma next_past_end_advances_witness :
  done empty_input = true /\
  next_n empty_input 3 =
    Some (set_index empty_input 3%N,
          [Err EndOfInput; Err EndOfInput; Err EndOfInput]) /\
  has (set_index empty_input 3%N) 1 = Some false.
Proof.
  assert (Hd : done empty_input = true) by (vm_compute; reflexivity).
  assert (Hm : (index empty_input + N.of_nat 3 <= usize_max)%N)
    by (unfold usize_max; simpl; lia).
  destruct (next_past_end_advances empty_input 3 Hd Hm) as (H1 & _ & H3).
  split; [exact Hd|]. split.
  - rewrite H1. reflexivity.
  - apply (H3 1%N); [lia | unfold usize_max; simpl; lia].
Defined.

(** ** Further properties of the cursor *)

Lemma take_add_drop {A} (l : list A) (a b : nat) :
  take (a + b) l = take a l ++ take b (drop a l).
Proof.
  revert l. induction a as [|a IH]; intros l; [done|].
  destruct l as [|x l]; simpl; [by rewrite take_nil|]. by rewrite IH.
Qed.

(** The window lemma behind [has] and [slice_next], for reuse. *)
Lemma slice_next_window {Token} `{EqDecision Token}
    (s : ParseInput Token) (n : N) :
  (index s + n <= usize_max)%N ->
  has s n = Some (bool_decide (index s + n <= tokens_len s)%N) /\
  ((index s + n <= tokens_len s)%N ->
     exists window,
       slice_next s n = Some (set_index s (index s + n)%N, Ok window) /\
       window = take (N.to_nat n) (drop (N.to_nat (index s)) (tokens s)) /\
       length window = N.to_nat n) /\
  (~ (index s + n <= tokens_len s)%N ->
     slice_next s n = Some (s, Err EndOfInput)).
Proof.
  intros Hmax.
  assert (Hhas : has s n = Some (bool_decide (index s + n <= tokens_len s)%N))
    by (unfold has; by rewrite (usize_add_ok _ _ Hmax)).
  split; [exact Hhas|]. split.
  - intros Hle. eexists. split; [|split; [reflexivity|]].
    + unfold slice_next. rewrite Hhas. simpl.
      rewrite bool_decide_eq_true_2 by done.
      unfold usize_add. rewrite decide_True by exact Hmax. simpl.
      unfold slice_range. rewrite decide_True.
      2:{ unfold tokens_len in Hle. lia. }
      simpl. do 3 f_equal. f_equal. f_equal. lia.
    + rewrite length_take, length_drop. unfold tokens_len in Hle. lia.
  - intros Hgt. unfold slice_next. rewrite Hhas. simpl.
    rewrite bool_decide_eq_false_2 by done. done.
Qed.



(** [peek] fails with [EndOfInput] exactly when [done] is true. *)
Theorem peek_end_iff_done {Token} `{EqDecision Token} (s : ParseInput Token) :
  peek s = Err EndOfInput <-> done s = true.
Proof.
  unfold peek, done, get_current, tokens_len.
  rewrite bool_decide_eq_true. split.
  - destruct (tokens s !! N.to_nat (index s)) eqn:E; simpl; [discriminate|].
    intros _. apply lookup_ge_None in E. lia.
  - intros H. rewrite lookup_ge_None_2 by lia. done.
Qed.

(** [has(1)] is the negation of [done]. *)
Theorem has_one_not_done {Token} `{EqDecision Token} (s : ParseInput Token) :
  (index s + 1 <= usize_max)%N ->
  has s 1 = Some (negb (done s)).
Proof.
  intros Hm. unfold has, done. rewrite (usize_add_ok _ _ Hm). simpl.
  f_equal. unfold tokens_len.
  destruct (bool_decide (N.of_nat _ <= index s)%N) eqn:E.
  - apply bool_decide_eq_true_1 in E. apply bool_decide_eq_false_2. lia.
  - apply bool_decide_eq_false_1 in E. apply bool_decide_eq_true_2. lia.
Qed.

Lemma has_one_not_done_witness :
  (index demo_input + 1 <= usize_max)%N /\ has demo_input 1 = Some true.
Proof.
  assert (Hm : (index demo_input + 1 <= usize_max)%N)
    by (unfold usize_max; simpl; lia).
  split; [exact Hm|]. rewrite (has_one_not_done demo_input Hm).
  reflexivity.
Defined.

(** [slice_next(0)] returns the empty window while the cursor is at or
    before the end, but fails with [EndOfInput] once a failed [next] has
    moved the cursor past the end. *)
Theorem slice_next_zero {Token} `{EqDecision Token} (s : ParseInput Token) :
  (index s <= usize_max)%N ->
  ((index s <= tokens_len s)%N -> slice_next s 0 = Some (s, Ok [])) /\
  ((tokens_len s < index s)%N -> slice_next s 0 = Some (s, Err EndOfInput)).
Proof.
  intros Hm. rewrite <- (N.add_0_r (index s)) in Hm.
  destruct (slice_next_window s 0 Hm) as (_ & Hin & Hout).
  rewrite N.add_0_r in Hin, Hout. split.
  - intros Hle. destruct (Hin Hle) as (w & Hs & Hw & _).
    rewrite Hs, Hw, ?N.add_0_r, set_index_index. done.
  - intros Hlt. apply Hout. lia.
Qed.

Lemma slice_next_zero_witness :
  (index (set_index empty_input 1%N) <= usize_max)%N /\
  slice_next (set_index empty_input 1%N) 0 =
    Some (set_index empty_input 1%N, Err EndOfInput).
Proof.
  assert (Hm : (index (set_index empty_input 1%N) <= usize_max)%N)
    by (unfold usize_max; simpl; lia).
  split; [exact Hm|].
  apply (slice_next_zero (set_index empty_input 1%N) Hm).
  unfold tokens_len; simpl; lia.
Defined.

Lemma vec_len_ok_set_index {Token} (s : ParseInput Token) i :
  vec_len_ok s -> vec_len_ok (set_index s i).
Proof. by unfold vec_len_ok, tokens_len, set_index. Qed.

(** Slicing [a] tokens and then [b] more gives the same cursor as slicing
    [a + b] at once, and the two windows concatenate to the big one. *)
Theorem slice_next_compose {Token} `{EqDecision Token}
    (s : ParseInput Token) (a b : N) :
  vec_len_ok s -> (index s + a + b <= tokens_len s)%N ->
  exists w1 w2,
    slice_next s a = Some (set_index s (index s + a)%N, Ok w1) /\
    slice_next (set_index s (index s + a)%N) b =
      Some (set_index s (index s + a + b)%N, Ok w2) /\
    slice_next s (a + b) = Some (set_index s (index s + a + b)%N, Ok (w1 ++ w2)).
Proof.
  intros Hv Hle. unfold vec_len_ok, isize_max in Hv.
  destruct (slice_next_window s a) as (_ & Ha & _);
    [unfold usize_max; lia|].
  destruct (Ha ltac:(lia)) as (w1 & Hs1 & Hw1 & _).
  set (s1 := set_index s (index s + a)%N).
  destruct (slice_next_window s1 b) as (_ & Hb & _);
    [unfold s1, set_index, usize_max; simpl; lia|].
  destruct (Hb ltac:(unfold s1, tokens_len, set_index in *; simpl; lia))
    as (w2 & Hs2 & Hw2 & _).
  destruct (slice_next_window s (a + b)) as (_ & Hab & _);
    [unfold usize_max; lia|].
  destruct (Hab ltac:(lia)) as (w & Hs & Hw & _).
  exists w1, w2. split; [exact Hs1|]. split.
  - rewrite Hs2. reflexivity.
  - rewrite Hs, N.add_assoc. do 3 f_equal.
    rewrite Hw, Hw1, Hw2. unfold s1, set_index; simpl.
    rewrite N2Nat.inj_add, take_add_drop, drop_drop, N2Nat.inj_add. done.
Qed.

Lemma slice_next_compose_witness :
  vec_len_ok demo_input /\ (index demo_input + 1 + 1 <= tokens_len demo_input)%N /\
  slice_next demo_input 2 =
    Some (set_index demo_input 2%N,
          Ok ([mkTokenData 1 (mkSpan 0 1)] ++ [mkTokenData 2 (mkSpan 2 1)])).
Proof.
  assert (Hv : vec_len_ok demo_input)
    by (unfold vec_len_ok, tokens_len, isize_max; simpl; lia).
  assert (Hl : (index demo_input + 1 + 1 <= tokens_len demo_input)%N)
    by (unfold tokens_len; simpl; lia).
  split; [exact Hv|]. split; [exact Hl|].
  destruct (slice_next_compose demo_input 1 1 Hv Hl)
    as (w1 & w2 & H1 & H2 & H3).
  assert (E1 : w1 = [mkTokenData 1 (mkSpan 0 1)]).
  { vm_compute in H1. congruence. }
  assert (E2 : w2 = [mkTokenData 2 (mkSpan 2 1)]).
  { vm_compute in H2. congruence. }
  subst. exact H3.
Defined.

Lemma next_n_take {Token} `{EqDecision Token} (s : ParseInput Token) (k : nat) :
  vec_len_ok s -> (index s + N.of_nat k <= tokens_len s)%N ->
  next_n s k =
    Some (set_index s (index s + N.of_nat k)%N,
          Ok <$> take k (drop (N.to_nat (index s)) (tokens s))).
Proof.
  revert s. induction k as [|k IH]; intros s Hv Hle; simpl.
  - by rewrite N.add_0_r, set_index_index.
  - destruct (lookup_lt_is_Some_2 (tokens s) (N.to_nat (index s)))
      as [x Hx]; [unfold tokens_len in Hle; lia|].
    rewrite (next_current s x Hv Hx). simpl.
    rewrite (IH _ (vec_len_ok_set_index s _ Hv))
      by (unfold tokens_len, set_index in *; simpl; lia).
    simpl. rewrite set_index_set_index, (drop_S _ x _ Hx).
    simpl. replace (index s + 1 + N.of_nat k)%N
      with (index s + N.of_nat (S k))%N by lia.
    replace (N.to_nat (index s + 1)) with (S (N.to_nat (index s))) by lia.
    reflexivity.
Qed.

(** While [k] tokens remain, [k] calls of [next] return exactly the window
    that [slice_next(k)] returns, token by token, and leave the cursor at
    the same position. *)
Theorem next_n_matches_slice_next {Token} `{EqDecision Token}
    (s : ParseInput Token) (k : nat) :
  vec_len_ok s -> (index s + N.of_nat k <= tokens_len s)%N ->
  exists w,
    slice_next s (N.of_nat k) = Some (set_index s (index s + N.of_nat k)%N, Ok w) /\
    next_n s k = Some (set_index s (index s + N.of_nat k)%N, Ok <$> w).
Proof.
  intros Hv Hle. unfold vec_len_ok, isize_max in Hv.
  destruct (slice_next_window s (N.of_nat k)) as (_ & H & _);
    [unfold usize_max; lia|].
  destruct (H Hle) as (w & Hs & Hw & _).
  exists w. split; [exact Hs|].
  rewrite (next_n_take s k Hv Hle), Hw, Nat2N.id. done.
Qed.

Lemma next_n_matches_slice_next_witness :
  vec_len_ok demo_input /\ (index demo_input + N.of_nat 2 <= tokens_len demo_input)%N /\
  next_n demo_input 2 = Some (set_index demo_input 2%N, Ok <$> demo_tokens).
Proof.
  assert (Hv : vec_len_ok demo_input)
    by (unfold vec_len_ok, tokens_len, isize_max; simpl; lia).
  assert (Hl : (index demo_input + N.of_nat 2 <= tokens_len demo_input)%N)
    by (unfold tokens_len; simpl; lia).
  split; [exact Hv|]. split; [exact Hl|].
  destruct (next_n_matches_slice_next demo_input 2 Hv Hl) as (w & Hs & Hn).
  assert (E : slice_next demo_input (N.of_nat 2) =
              Some (set_index demo_input 2%N, Ok demo_tokens))
    by (vm_compute; reflexivity).
  rewrite E in Hs. injection Hs as Hw. rewrite Hw. exact Hn.
Defined.

Lemma get_current_None_iff_done {Token} (s : ParseInput Token) :
  get_current s = None <-> done s = true.
Proof.
  unfold get_current, done, tokens_len. rewrite bool_decide_eq_true.
  rewrite lookup_ge_None. lia.
Qed.

(** At or past the end, [next_if] returns [None] and leaves the cursor
    where it is, while [assert_next] fails with [EndOfInput] and still
    moves the cursor one step. *)
Theorem optional_and_required_token_at_end {Token} `{EqDecision Token}
    (s : ParseInput Token) (tok : Token) (description : string) :
  done s = true -> (index s + 1 <= usize_max)%N ->
  next_if s tok = Some (s, None) /\
  assert_next s tok description =
    Some (set_index s (index s + 1)%N, Err EndOfInput).
Proof.
  intros Hd Hm. split.
  - unfold next_if, peek.
    by rewrite (proj2 (get_current_None_iff_done s) Hd).
  - unfold assert_next. by rewrite (next_at_end s Hd Hm).
Qed.

Lemma optional_and_required_token_at_end_witness :
  done empty_input = true /\ (index empty_input + 1 <= usize_max)%N /\
  next_if empty_input 4 = Some (empty_input, None) /\
  assert_next empty_input 4 "four" =
    Some (set_index empty_input 1%N, Err EndOfInput).
Proof.
  assert (Hd : done empty_input = true) by (vm_compute; reflexivity).
  assert (Hm : (index empty_input + 1 <= usize_max)%N)
    by (unfold usize_max; simpl; lia).
  split; [exact Hd|]. split; [exact Hm|].
  exact (optional_and_required_token_at_end empty_input 4 "four" Hd Hm).
Defined.


(** No cursor call changes the source or the tokens: [get_source] returns
    the same source after any sequence of calls that does not panic. *)
Theorem get_source_stable {Token} `{EqDecision Token}
    (s s' : ParseInput Token) (os : list (CursorOp Token)) :
  run_ops s os = Some s' ->
  get_source s' = get_source s /\ tokens s' = tokens s.
Proof.
  revert s. induction os as [|o os IH]; intros s H; simpl in H.
  - by simplify_eq.
  - destruct (step_op s o) as [s1|] eqn:E; [|done]. simpl in H.
    apply step_op_frame in E as [E1 E2].
    destruct (IH s1 H) as [H1 H2]. unfold get_source in *.
    split; congruence.
Qed.

Lemma get_source_stable_witness :
  run_ops demo_input [OpNext; OpAssertNext 9 "nine"; OpSliceNext 5%N]
    = Some (set_index demo_input 2%N) /\
  get_source (set_index demo_input 2%N) = demo_src.
Proof.
  assert (H : run_ops demo_input [OpNext; OpAssertNext 9 "nine"; OpSliceNext 5%N]
              = Some (set_index demo_input 2%N)) by (vm_compute; reflexivity).
  split; [exact H|].
  destruct (get_source_stable _ _ _ H) as [Hs _]. exact Hs.
Defined.

(** ** Further properties of the arena *)

Section ArenaMore.

Context {ValType Statement : Type}.
Implicit Types (c : Component ValType Statement) (o : AllocOp ValType Statement).

Lemma alloc_span_exact c o c1 id t id' :
  alloc c o = (c1, id) ->
  table_span c1 t id' =
    if decide (op_table o = t /\ id' = id) then Some (op_span o)
    else table_span c t id'.
Proof.
  destruct c as [ty tys st sts nm nms].
  destruct o; simpl;
    unfold new_name, new_type, new_statement, primary_push; simpl;
    intros H; injection H as <- <-.
  all: destruct t; simpl; unfold name_span, type_span, statement_span; simpl.
  all: rewrite ?lookup_insert; repeat case_decide; naive_solver.
Qed.

Lemma run_allocs_prefix c os :
  exists l1 l2 l3,
    names (run_allocs c os).1 = names c ++ l1 /\
    types (run_allocs c os).1 = types c ++ l2 /\
    statements (run_allocs c os).1 = statements c ++ l3.
Proof.
  revert c. induction os as [|o os IH]; intros c; simpl.
  - exists [], [], []. by rewrite !app_nil_r.
  - destruct (alloc c o) as [c1 id] eqn:Ha.
    destruct (run_allocs c1 os) as [c2 hs] eqn:Hr.
    destruct (IH c1) as (l1 & l2 & l3 & H1 & H2 & H3).
    rewrite Hr in H1, H2, H3. simpl in *.
    destruct c as [ty tys st sts nm nms].
    destruct o; simpl in Ha;
      unfold new_name, new_type, new_statement, primary_push in Ha;
      simpl in Ha; injection Ha as <- <-; simpl in *.
    + exists ([name] ++ l1), l2, l3. by rewrite H1, H2, H3, app_assoc.
    + exists l1, ([valtype] ++ l2), l3. by rewrite H1, H2, H3, app_assoc.
    + exists l1, l2, ([statement] ++ l3). by rewrite H1, H2, H3, app_assoc.
Qed.

Lemma new_statement_stable c statement span os :
  let '(c1, id) := new_statement c statement span in
  id = N.of_nat (length (statements c)) /\
  get_statement (run_allocs c1 os).1 id = Some statement /\
  statement_span (run_allocs c1 os).1 id = Some span.
Proof.
  destruct (new_statement c statement span) as [c1 id] eqn:Ha.
  destruct (alloc_spec c (NewStatement statement span) c1 id Ha)
    as (Hid & Hlen & Hsp & _). simpl in Hid.
  split; [exact Hid|]. split.
  - destruct (run_allocs_prefix c1 os) as (_ & _ & l3 & _ & _ & H3).
    unfold get_statement. rewrite H3, lookup_app_l.
    + destruct c. unfold new_statement, primary_push in Ha. simpl in *.
      injection Ha as <- <-. simpl. rewrite Nat2N.id.
      by apply list_lookup_middle.
    + specialize (Hlen TStatements). rewrite decide_True in Hlen by done.
    simpl in Hlen |- *. subst id. lia.
  - change (statement_span (run_allocs c1 os).1 id)
      with (table_span (run_allocs c1 os).1 TStatements id).
    rewrite run_allocs_span_stable; [exact Hsp|].
    specialize (Hlen TStatements). rewrite decide_True in Hlen by done.
    simpl in Hlen |- *. subst id. lia.
Qed.

Lemma new_name_stable c name span os :
  let '(c1, id) := new_name c name span in
  id = N.of_nat (length (names c)) /\
  get_name (run_allocs c1 os).1 id = Some name /\
  name_span (run_allocs c1 os).1 id = Some span.
Proof.
  destruct (new_name c name span) as [c1 id] eqn:Ha.
  destruct (alloc_spec c (NewName name span) c1 id Ha)
    as (Hid & Hlen & Hsp & _). simpl in Hid.
  split; [exact Hid|]. split.
  - destruct (run_allocs_prefix c1 os) as (l3 & _ & _ & H3 & _ & _).
    unfold get_name. rewrite H3, lookup_app_l.
    + destruct c. unfold new_name, primary_push in Ha. simpl in *.
      injection Ha as <- <-. simpl. rewrite Nat2N.id.
      by apply list_lookup_middle.
    + specialize (Hlen TNames). rewrite decide_True in Hlen by done.
    simpl in Hlen |- *. subst id. lia.
  - change (name_span (run_allocs c1 os).1 id)
      with (table_span (run_allocs c1 os).1 TNames id).
    rewrite run_allocs_span_stable; [exact Hsp|].
    specialize (Hlen TNames). rewrite decide_True in Hlen by done.
    simpl in Hlen |- *. subst id. lia.
Qed.

Lemma new_type_stable c valtype span os :
  let '(c1, id) := new_type c valtype span in
  id = N.of_nat (length (types c)) /\
  get_type (run_allocs c1 os).1 id = Some valtype /\
  type_span (run_allocs c1 os).1 id = Some span.
Proof.
  destruct (new_type c valtype span) as [c1 id] eqn:Ha.
  destruct (alloc_spec c (NewType valtype span) c1 id Ha)
    as (Hid & Hlen & Hsp & _). simpl in Hid.
  split; [exact Hid|]. split.
  - destruct (run_allocs_prefix c1 os) as (_ & l3 & _ & _ & H3 & _).
    unfold get_type. rewrite H3, lookup_app_l.
    + destruct c. unfold new_type, primary_push in Ha. simpl in *.
      injection Ha as <- <-. simpl. rewrite Nat2N.id.
      by apply list_lookup_middle.
    + specialize (Hlen TTypes). rewrite decide_True in Hlen by done.
    simpl in Hlen |- *. subst id. lia.
  - change (type_span (run_allocs c1 os).1 id)
      with (table_span (run_allocs c1 os).1 TTypes id).
    rewrite run_allocs_span_stable; [exact Hsp|].
    specialize (Hlen TTypes). rewrite decide_True in Hlen by done.
    simpl in Hlen |- *. subst id. lia.
Qed.

End ArenaMore.

(** A value stored by [new_name], [new_type] or [new_statement] is returned
    unchanged by [get_name], [get_type] or [get_statement], and its span by
    [name_span], [type_span] or [statement_span], however many allocations
    follow; the handle is the table's length before the allocation. *)
Theorem arena_get_after_alloc {ValType Statement : Type}
    (c : Component ValType Statement) (os : list (AllocOp ValType Statement))
    (name : string) (valtype : ValType) (statement : Statement) (span : Span) :
  (let '(c1, id) := new_name c name span in
   id = N.of_nat (length (names c)) /\
   get_name (run_allocs c1 os).1 id = Some name /\
   name_span (run_allocs c1 os).1 id = Some span) /\
  (let '(c1, id) := new_type c valtype span in
   id = N.of_nat (length (types c)) /\
   get_type (run_allocs c1 os).1 id = Some valtype /\
   type_span (run_allocs c1 os).1 id = Some span) /\
  (let '(c1, id) := new_statement c statement span in
   id = N.of_nat (length (statements c)) /\
   get_statement (run_allocs c1 os).1 id = Some statement /\
   statement_span (run_allocs c1 os).1 id = Some span).
Proof.
  split; [apply new_name_stable|].
  split; [apply new_type_stable|apply new_statement_stable].
Qed.

(** In an arena built from [Component::new] by allocations, a handle has a
    value and a span exactly when it is below the table's length: the
    [unwrap] in [get_*] and [*_span] fails exactly on handles the table has
    not issued. *)
Theorem arena_handle_lookup_total {ValType Statement : Type}
    (os : list (AllocOp ValType Statement)) (id : N) :
  let c := (run_allocs Component_new os).1 in
  (is_Some (get_name c id) <-> (N.to_nat id < length (names c))%nat) /\
  (is_Some (name_span c id) <-> (N.to_nat id < length (names c))%nat) /\
  (is_Some (get_type c id) <-> (N.to_nat id < length (types c))%nat) /\
  (is_Some (type_span c id) <-> (N.to_nat id < length (types c))%nat) /\
  (is_Some (get_statement c id) <-> (N.to_nat id < length (statements c))%nat) /\
  (is_Some (statement_span c id) <-> (N.to_nat id < length (statements c))%nat).
Proof.
  assert (Hinv : forall (c : Component ValType Statement) os t id,
    (forall t id, is_Some (table_span c t id) <-> (N.to_nat id < table_len c t)%nat) ->
    is_Some (table_span (run_allocs c os).1 t id) <->
      (N.to_nat id < table_len (run_allocs c os).1 t)%nat).
  { intros c0 os0. revert c0. induction os0 as [|o os0 IH]; intros c0 t id0 H;
      simpl; [apply H|].
    destruct (alloc c0 o) as [c1 id1] eqn:Ha.
    destruct (run_allocs c1 os0) as [c2 hs] eqn:Hr.
    specialize (IH c1). rewrite Hr in IH. apply IH.
    intros t' id'. rewrite (alloc_span_exact c0 o c1 id1 t' id' Ha).
    destruct (alloc_spec c0 o c1 id1 Ha) as (Hid & Hlen & _ & _).
    rewrite Hlen. case_decide as Hc.
    - destruct Hc as [<- ->]. rewrite decide_True by done.
      split; [intros _; lia|intros _; eauto].
    - rewrite H. destruct (decide (op_table o = t')) as [<-|Hne].
      + split; [lia|]. intros Hlt.
        assert (N.to_nat id' <> table_len c0 (op_table o)).
        { intros Heq. apply Hc. split; [done|]. subst id1. lia. }
        lia.
      + lia. }
  intros c.
  assert (H0 : forall t id, is_Some (table_span c t id) <->
                 (N.to_nat id < table_len c t)%nat).
  { intros t id0. apply Hinv. intros [] id1; simpl;
      unfold name_span, type_span, statement_span; simpl;
      rewrite lookup_empty; split; intros Hx;
      first [destruct Hx as [? Hx]; discriminate | lia]. }
  unfold get_name, get_type, get_statement.
  rewrite !lookup_lt_is_Some.
  pose proof (H0 TNames id) as H1. pose proof (H0 TTypes id) as H2.
  pose proof (H0 TStatements id) as H3. simpl in H1, H2, H3. tauto.
Qed.

(** [alloc_let] stores the [Let] statement built from its arguments and
    its span under the next statement handle, retrievable after any later
    allocations. *)
Theorem alloc_let_stored {ValType Statement : Type}
    (Statement_Let : Let_ -> Statement) (c : Component ValType Statement)
    (mutable : bool) (ident : N) (annotation : option N) (expression : N)
    (span : Span) (os : list (AllocOp ValType Statement)) :
  let '(c1, id) := alloc_let Statement_Let c mutable ident annotation expression span in
  id = N.of_nat (length (statements c)) /\
  get_statement (run_allocs c1 os).1 id =
    Some (Statement_Let (mkLet mutable ident annotation expression)) /\
  statement_span (run_allocs c1 os).1 id = Some span /\
  names c1 = names c /\ types c1 = types c.
Proof.
  unfold alloc_let.
  pose proof (new_statement_stable c
                (Statement_Let (mkLet mutable ident annotation expression))
                span os) as H.
  destruct (new_statement c _ span) as [c1 id] eqn:Ha.
  destruct H as (H1 & H2 & H3). split; [done|]. split; [done|].
  split; [done|].
  destruct c. unfold new_statement, primary_push in Ha. simpl in Ha.
  injection Ha as <- <-. done.
Qed.

(** ** Further properties of the metadata wrapper *)

(** Merging is insensitive to how the left span was itself merged:
    [new_range(w, new_range(v, a, b).span, c)] is [new_range(w, a, c)]. *)
Theorem new_range_nested {T U} (v : T) (w : U) (a b c : Span) (m : M T) :
  M_new_range v a b = Some m ->
  M_new_range w (M_span m) c = M_new_range w a c /\
  MBox_new_range w (M_span m) c = MBox_new_range w a c.
Proof.
  unfold M_new_range. intros H.
  destruct (usize_add (offset b) (len b)) as [e|]; simpl in H; [|done].
  destruct (usize_sub e (offset a)) as [l|]; simpl in H; [|done].
  injection H as <-. simpl. done.
Qed.

Lemma new_range_nested_witness :
  M_new_range "v" (mkSpan 2 3) (mkSpan 6 1) = Some (mkM (mkSpan 2 5) "v") /\
  M_new_range 0 (mkSpan 2 5) (mkSpan 9 2) = M_new_range 0 (mkSpan 2 3) (mkSpan 9 2).
Proof.
  assert (H : M_new_range "v" (mkSpan 2 3) (mkSpan 6 1) = Some (mkM (mkSpan 2 5) "v"))
    by (vm_compute; reflexivity).
  split; [exact H|].
  exact (proj1 (new_range_nested "v" 0 _ _ (mkSpan 9 2) _ H)).
Defined.

(** Merging a span with itself gives that span back: [new_range(v, sp, sp)]
    is [new(v, sp)] for [M] and [MBox], when the span's end is a [usize]. *)
Theorem new_range_self {T} (v : T) (sp : Span) :
  (offset sp + len sp <= usize_max)%N ->
  M_new_range v sp sp = Some (M_new v sp) /\
  MBox_new_range v sp sp = Some (MBox_new v sp).
Proof.
  intros Hm. unfold M_new_range, MBox_new_range.
  rewrite (usize_add_ok _ _ Hm). simpl.
  unfold usize_sub. rewrite decide_True by lia. simpl.
  destruct sp as [o l]. simpl.
  replace (o + l - o)%N with l by lia. done.
Qed.

Lemma new_range_self_witness :
  (offset (mkSpan 4 7) + len (mkSpan 4 7) <= usize_max)%N /\
  M_new_range tt (mkSpan 4 7) (mkSpan 4 7) = Some (M_new tt (mkSpan 4 7)).
Proof.
  assert (Hm : (offset (mkSpan 4 7) + len (mkSpan 4 7) <= usize_max)%N)
    by (unfold usize_max; simpl; lia).
  split; [exact Hm|]. exact (proj1 (new_range_self tt _ Hm)).
Defined.
